(** * reptilians.js: the USB key driver ([Key]) and the wallet ([Wallet])

    A shallow embedding of [src/index.js].

    - Buffers are [list byte]; [buff[i]] is the list lookup [buff !! i]
      ([None] is JavaScript's [undefined]); [buff.slice(a, b)] is
      [take (b - a) (drop a buff)].
    - The event emitter of [Key] is modelled for one call in flight: a call
      installs its listeners, writes its request, and then consumes the
      inbound packets of the device in arrival order.  The promise the call
      returns is [Pending] until a DONE packet arrives.
    - A JavaScript exception is a value of [exn]; code that can throw lives
      in the error monad [outcome]. *)

From Stdlib Require Import ZArith Ascii String.
From Stdlib.Strings Require Import Byte.
From stdpp Require Import base tactics option list strings.

Local Open Scope Z_scope.

(** ** Buffers *)

Abbreviation buffer := (list byte).

Definition byte_val (b : byte) : Z := Z.of_N (Byte.to_N b).

Definition byte_of_Z (z : Z) : byte :=
  match Byte.of_N (Z.to_N z) with
  | Some b => b
  | None => x00
  end.

(** [buff.slice(a, b)] for [0 <= a <= b]: out-of-range bounds are clamped. *)
Definition slice (buff : buffer) (a b : nat) : buffer :=
  take (b - a) (drop a buff).

Definition hex_digit (n : N) : ascii :=
  match n with
  | 0 => "0" | 1 => "1" | 2 => "2" | 3 => "3" | 4 => "4" | 5 => "5"
  | 6 => "6" | 7 => "7" | 8 => "8" | 9 => "9" | 10 => "a" | 11 => "b"
  | 12 => "c" | 13 => "d" | 14 => "e" | _ => "f"
  end%N%char.

(** [buff.toString('hex')]: two lowercase digits per byte. *)
Fixpoint toString_hex (buff : buffer) : string :=
  match buff with
  | [] => EmptyString
  | b :: rest =>
      String (hex_digit (Byte.to_N b / 16))
        (String (hex_digit (Byte.to_N b mod 16)) (toString_hex rest))
  end.

(** The template literal [`0x${buff.toString('hex')}`]. *)
Definition hex0x (buff : buffer) : string :=
  String "0" (String "x" (toString_hex buff)).

Definition ETH_ADDRESS_SIZE : nat := 20.

(** ** Exceptions, outcomes, promises *)

Inductive exn : Type :=
  | TypeError
  | ReferenceError (name : string)
  | Error (message : string).

Inductive outcome (A : Type) : Type :=
  | Ok (a : A)
  | Throw (e : exn).
Arguments Ok {A} a.
Arguments Throw {A} e.

Definition bind {A B : Type} (m : outcome A) (k : A -> outcome B) : outcome B :=
  match m with
  | Ok a => k a
  | Throw e => Throw e
  end.

Declare Scope js_scope.
Delimit Scope js_scope with js.
Notation "'let*' x ':=' m 'in' k" := (bind m (fun x => k))
  (at level 10, x name, m at level 100, k at level 200) : js_scope.

(** The state of the promise returned by a [Key] operation once the inbound
    packets seen so far have been processed.  [ListenerThrew e]: the ['done']
    listener raised [e] inside [emit]; [resolve] was not reached and the
    listener is gone ([once]), so the promise stays pending for ever. *)
Inductive promise (A : Type) : Type :=
  | Pending
  | Resolved (a : A)
  | ListenerThrew (e : exn).
Arguments Pending {A}.
Arguments Resolved {A} a.
Arguments ListenerThrew {A} e.

(** ** Key: the command channel *)

Module Key.

Definition HID_PACKET_SIZE : nat := 64.

Module CMD.
Definition HELLO : byte := x00.
Definition RESET : byte := x01.
Definition CREATE_KEY : byte := x02.
Definition DUMP_KEYS : byte := x03.
Definition DELETE : byte := x04.
Definition SIGN : byte := x05.
End CMD.

Module RES.
Definition KEY_CREATED : byte := x01.
Definition DUMP_KEYS : byte := x02.
Definition SIGN : byte := x03.
Definition DONE : byte := xff.
End RES.

(** The events the constructor's ['data'] handler emits. *)
Inductive event : Type :=
  | ev_key_created (buff : buffer)
  | ev_dump_keys (buff : buffer)
  | ev_sign (buff : buffer)
  | ev_done.

(** [device.on('data', ...)]: the [switch (data[0])]; a packet with another
    tag, or an empty one, emits nothing. *)
Definition on_data (data : buffer) : option event :=
  match data !! 0%nat with
  | Some tag =>
      if Byte.eqb tag RES.KEY_CREATED then Some (ev_key_created (drop 1 data))
      else if Byte.eqb tag RES.DUMP_KEYS then Some (ev_dump_keys (drop 1 data))
      else if Byte.eqb tag RES.SIGN then Some (ev_sign (drop 1 data))
      else if Byte.eqb tag RES.DONE then Some ev_done
      else None
  | None => None
  end.

(** [_.fill(new Array(HID_PACKET_SIZE), 0)] with the tag and the index set. *)
Definition request (cmd index : byte) : buffer :=
  <[1%nat := index]> (<[0%nat := cmd]> (replicate HID_PACKET_SIZE x00)).

(** *** createKey *)

(** [address] is the closure variable; [armed] tells whether the
    [once('key-created')] listener is still installed. *)
Fixpoint createKey_run (address : option string) (armed : bool)
    (inbound : list buffer) : promise (option string) :=
  match inbound with
  | [] => Pending
  | data :: rest =>
      match on_data data with
      | Some (ev_key_created buff) =>
          if armed
          then createKey_run (Some (hex0x (slice buff 0 ETH_ADDRESS_SIZE)))
                 false rest
          else createKey_run address armed rest
      | Some ev_done => Resolved address
      | _ => createKey_run address armed rest
      end
  end.

Definition createKey (inbound : list buffer) : promise (option string) :=
  createKey_run None true inbound.

(** *** sign *)

(** The ['done'] listener of [sign]: [res[0].slice] and [res[1].slice]
    throw a TypeError when the element is [undefined]. *)
Definition sign_onDone (res : list buffer) : promise buffer :=
  match res !! 0%nat with
  | None => ListenerThrew TypeError
  | Some res0 =>
      match res !! 1%nat with
      | None => ListenerThrew TypeError
      | Some res1 => Resolved (slice res0 0 32 ++ slice res1 0 32)
      end
  end.

Fixpoint sign_run (res : list buffer) (inbound : list buffer)
    : promise buffer :=
  match inbound with
  | [] => Pending
  | data :: rest =>
      match on_data data with
      | Some (ev_sign buff) => sign_run (res ++ [buff]) rest
      | Some ev_done => sign_onDone res
      | _ => sign_run res rest
      end
  end.

Definition sign (inbound : list buffer) : promise buffer :=
  sign_run [] inbound.


(** *** listAccounts *)

Record Account : Type := { index : byte; address : string }.

(** The [while (i < buff.length)] loop of the [forEach] callback, one
    iteration per unit of [fuel]; [None] only when the fuel runs out.
    [buff !! i = None] is the loop test failing ([i >= buff.length]);
    [return] leaves the callback with what was pushed so far. *)
Fixpoint scan (fuel : nat) (buff : buffer) (i : nat)
    (addresses : list Account) : option (list Account) :=
  match fuel with
  | O => None
  | S fuel' =>
      match buff !! i with
      | None => Some addresses
      | Some index =>
          if Byte.eqb index xff then Some addresses
          else
            let i1 := (i + 1)%nat in
            let address := hex0x (slice buff i1 (i1 + ETH_ADDRESS_SIZE)) in
            let i2 := (i1 + ETH_ADDRESS_SIZE)%nat in
            scan fuel' buff i2
              (addresses ++ [{| index := index; address := address |}])
      end
  end.

(** One call of the [forEach] callback: [i] advances by 21 per iteration,
    so [S (length buff)] iterations are more than the loop can make. *)
Definition scan_packet (addresses : list Account) (buff : buffer)
    : option (list Account) :=
  scan (S (length buff)) buff 0 addresses.

(** [res.forEach(...)] over the shared [addresses] array. *)
Fixpoint forEach_scan (res : list buffer) (addresses : list Account)
    : option (list Account) :=
  match res with
  | [] => Some addresses
  | buff :: rest =>
      match scan_packet addresses buff with
      | Some addresses' => forEach_scan rest addresses'
      | None => None
      end
  end.

(** The ['done'] listener of [listAccounts]; [None] only when [scan] ran
    out of fuel. *)
Definition listAccounts_onDone (res : list buffer)
    : option (promise (list Account)) :=
  match forEach_scan res [] with
  | Some addresses => Some (Resolved addresses)
  | None => None
  end.

Fixpoint listAccounts_run (res : list buffer) (inbound : list buffer)
    : option (promise (list Account)) :=
  match inbound with
  | [] => Some Pending
  | data :: rest =>
      match on_data data with
      | Some (ev_dump_keys buff) => listAccounts_run (res ++ [buff]) rest
      | Some ev_done => listAccounts_onDone res
      | _ => listAccounts_run res rest
      end
  end.

Definition listAccounts (inbound : list buffer)
    : option (promise (list Account)) :=
  listAccounts_run [] inbound.

(** *** deleteKey *)

(** The packet [deleteKey] writes before it waits for DONE. *)
Definition deleteKey_request (index : byte) : buffer :=
  request CMD.DELETE index.

(** *** What the inbound stream carries *)

Definition is_done (data : buffer) : bool :=
  match on_data data with Some ev_done => true | _ => false end.

Definition sign_payload (data : buffer) : option buffer :=
  match on_data data with Some (ev_sign buff) => Some buff | _ => None end.

Definition dump_keys_payload (data : buffer) : option buffer :=
  match on_data data with Some (ev_dump_keys buff) => Some buff | _ => None end.

Definition key_created_payload (data : buffer) : option buffer :=
  match on_data data with
  | Some (ev_key_created buff) => Some buff
  | _ => None
  end.

(** The entries of one DUMP_KEYS payload as the protocol describes them:
    (1 index byte, 20 address bytes) tuples, ended by the index byte 0xFF
    or by the end of the payload. *)
Inductive entries : buffer -> list Account -> Prop :=
  | entries_end : entries [] []
  | entries_sentinel rest : entries (xff :: rest) []
  | entries_cons idx addr rest l :
      idx <> xff ->
      length addr = ETH_ADDRESS_SIZE ->
      entries rest l ->
      entries (idx :: addr ++ rest)
        ({| index := idx; address := hex0x addr |} :: l).

(** *** The inbound stream of one call *)

(** Every packet of [pre] arrives before the first DONE. *)
Definition before_done (pre : list buffer) : Prop :=
  Forall (fun data => is_done data = false) pre.

(** Every packet has the size of a HID report. *)
Definition hid_sized (inbound : list buffer) : Prop :=
  Forall (fun data => length data = HID_PACKET_SIZE) inbound.

(** An account as the scan makes them: the index is not the sentinel and
    the address is the hex string of at most 20 bytes. *)
Definition scanned (a : Account) : Prop :=
  index a <> xff
  /\ exists addr, (length addr <= 20)%nat /\ address a = hex0x addr.

(** *** The request of sign *)

(** The elements of the array given to [device.write]; [None] is an
    element left [undefined]. *)
Abbreviation js_bytes := (list (option byte)).

(** The loop [for (let i = 0; i < 32; ++i) buff[2 + i] = payload[i]],
    [count] iterations from [i] on.  The indices written, 2 to 33, are
    inside the 64 elements of the array. *)
Fixpoint sign_request_loop (count i : nat) (payload : buffer)
    (buff : js_bytes) : js_bytes :=
  match count with
  | O => buff
  | S count' =>
      sign_request_loop count' (S i) payload
        (<[(2 + i)%nat := payload !! i]> buff)
  end.

(** The packet [sign] writes before it waits for DONE. *)
Definition sign_request (index : byte) (payload : buffer) : js_bytes :=
  sign_request_loop 32 0 payload (Some <$> request CMD.SIGN index).

End Key.

(** ** Wallet: the account directory and the signer *)

Definition secp256k1N : Z :=
  0xfffffffffffffffffffffffffffffffebaaedce6af48a03bbfd25e8cd0364141.

(** [secp256k1N.div(new BN(2))]: truncating division. *)
Definition secp256k1halfN : Z := secp256k1N / 2.

(** *** bn.js and ethereumjs-util on buffers *)

(** [new BN(s.toString('hex'), 16)]: the big-endian value of a buffer
    (0 for the empty buffer). *)
Definition BN_of_buffer (s : buffer) : Z :=
  fold_left (fun acc b => acc * 256 + byte_val b) s 0.

(** [BN.byteLength()]: the number of bytes of the magnitude, 0 for zero. *)
Definition BN_byteLength (z : Z) : nat :=
  if Z.abs z =? 0 then 0%nat else Z.to_nat (Z.log2 (Z.abs z) / 8 + 1).

(** The low [n] bytes of [z], most significant first. *)
Fixpoint be_bytes (n : nat) (z : Z) : buffer :=
  match n with
  | O => []
  | S n' => be_bytes n' (z / 256) ++ [byte_of_Z (z mod 256)]
  end.

(** [BN.toBuffer()]: the magnitude, big-endian, in [max 1 byteLength]
    bytes. *)
Definition BN_toBuffer (z : Z) : buffer :=
  be_bytes (Nat.max 1 (BN_byteLength z)) (Z.abs z).

(** [ethereumjsUtil.setLengthLeft(msg, length)]: left-pad with zeros, or
    keep the last [length] bytes ([msg.slice(-length)]). *)
Definition setLengthLeft (msg : buffer) (len : nat) : buffer :=
  if (length msg <? len)%nat
  then replicate (len - length msg) x00 ++ msg
  else drop (length msg - len) msg.

(** [String.prototype.toLowerCase] on text of ASCII letters, digits and
    signs, which is what an address is. *)
Definition lower_char (c : ascii) : ascii :=
  let n := nat_of_ascii c in
  if ((65 <=? n) && (n <=? 90))%nat then ascii_of_nat (n + 32) else c.

Fixpoint toLowerCase (s : string) : string :=
  match s with
  | EmptyString => EmptyString
  | String c rest => String (lower_char c) (toLowerCase rest)
  end.

(** A string used as a condition: only the empty string is falsy. *)
Definition truthy (s : string) : bool :=
  match s with
  | EmptyString => false
  | String _ _ => true
  end.

(** [Array.prototype.find] with a callback that may write to the element
    it is given: the callback returns its verdict and the element as it
    left it.  The array after the call is returned with the element found. *)
Fixpoint find {A : Type} (callback : A -> bool * A) (arr : list A)
    : option A * list A :=
  match arr with
  | [] => (None, [])
  | a :: rest =>
      let '(verdict, a') := callback a in
      if verdict then (Some a', a' :: rest)
      else
        let '(found, rest') := find callback rest in
        (found, a' :: rest')
  end.

(** *** Identifier resolution, for the free variables of a method *)

Inductive value : Type :=
  | VString (s : string)
  | VOther.

Definition scope : Type := list (string * value).

Fixpoint binding (name : string) (sc : scope) : option value :=
  match sc with
  | [] => None
  | (n, v) :: rest => if String.eqb n name then Some v else binding name rest
  end.

(** The bindings of the module: its [const]s, its classes and the arguments
    of the module wrapper. *)
Definition module_scope : scope :=
  [ ("EventEmitter", VOther); ("_", VOther); ("HID", VOther);
    ("Web3", VOther); ("BN", VOther); ("ethjsUtil", VOther);
    ("ethers", VOther); ("ethereumjsUtil", VOther); ("Touch", VOther);
    ("TOUCH_CONTRACT_ADDRESS",
      VString "0x0213DEc9C5eEC5AFc71Df8Fad4C39b3876F57C14");
    ("ETH_ADDRESS_SIZE", VOther); ("VENDOR_ID", VOther);
    ("PRODUCT_ID", VOther); ("secp256k1N", VOther);
    ("secp256k1halfN", VOther); ("Key", VOther); ("Wallet", VOther);
    ("main", VOther);
    ("exports", VOther); ("require", VOther); ("module", VOther);
    ("__filename", VOther); ("__dirname", VOther) ]%string.

(** A name is looked up in the scope of the function, then in the module,
    then on the global object; a name bound nowhere is a ReferenceError. *)
Definition resolve (globalThis : string -> option value) (locals : scope)
    (name : string) : outcome value :=
  match binding name locals with
  | Some v => Ok v
  | None =>
      match binding name module_scope with
      | Some v => Ok v
      | None =>
          match globalThis name with
          | Some v => Ok v
          | None => Throw (ReferenceError name)
          end
      end
  end.

(** *** Hex strings read back *)

(** The value of a hex digit, in either case. *)
Definition unhex (c : ascii) : option N :=
  let n := N_of_ascii c in
  if ((48 <=? n) && (n <=? 57))%N then Some (n - 48)%N
  else if ((97 <=? n) && (n <=? 102))%N then Some (n - 87)%N
  else if ((65 <=? n) && (n <=? 70))%N then Some (n - 55)%N
  else None.

(** [Buffer.from(str, 'hex')]: one byte per pair of hex digits; the
    decoding stops at the first pair that is not one, and a last single
    character is dropped. *)
Fixpoint Buffer_from_hex (str : string) : buffer :=
  match str with
  | String a (String b rest) =>
      match unhex a, unhex b with
      | Some hi, Some lo =>
          byte_of_Z (Z.of_N (16 * hi + lo)) :: Buffer_from_hex rest
      | _, _ => []
      end
  | _ => []
  end.

(** [new BN(str, 16)] for a string of hex digits, from the accumulator
    [acc] on; [None] for a string with another character. *)
Fixpoint BN_of_hex_from (acc : Z) (str : string) : option Z :=
  match str with
  | EmptyString => Some acc
  | String c rest =>
      match unhex c with
      | Some d => BN_of_hex_from (acc * 16 + Z.of_N d) rest
      | None => None
      end
  end.

Definition BN_of_hex (str : string) : option Z := BN_of_hex_from 0 str.

(** [str.substring(n)]. *)
Fixpoint substring_from (n : nat) (str : string) : string :=
  match n, str with
  | O, _ => str
  | S n', String _ rest => substring_from n' rest
  | S _, EmptyString => EmptyString
  end.

Module Wallet.

Import Key.

(** [this.accounts] (after [init]) and the packets written to the
    device so far. *)
Record state : Type := {
  accounts : list Account;
  written : list buffer
}.

(** The arrow function given to [find]: [account.address = address] is an
    assignment, and its value, the string assigned, is the verdict. *)
Definition getAddressIndex_callback (address : string) (account : Account)
    : bool * Account :=
  (truthy address, {| index := index account; address := address |}).

Definition getAddressIndex (address : string) (accs : list Account)
    : outcome byte * list Account :=
  let address := toLowerCase address in
  let '(account, accs') := find (getAddressIndex_callback address) accs in
  match account with
  | None => (Throw (Error "Account not found"), accs')
  | Some account => (Ok (index account), accs')
  end.

(** [deleteAddress()] has no parameter and declares only [index], after
    the use of [address]. *)
Definition deleteAddress_locals : scope := [].

Definition deleteAddress (globalThis : string -> option value) (w : state)
    : outcome unit * state :=
  match resolve globalThis deleteAddress_locals "address" with
  | Throw e => (Throw e, w)
  | Ok VOther => (Throw TypeError, w)
  | Ok (VString address) =>
      let '(r, accs') := getAddressIndex address (accounts w) in
      match r with
      | Throw e => (Throw e, {| accounts := accs'; written := written w |})
      | Ok index =>
          (Ok tt, {| accounts := accs';
                     written := written w ++ [deleteKey_request index] |})
      end
  end.

(** Lines 232-238 of [sign]: the EIP-2 rule on the [s] half. *)
Definition normalize_s (s : buffer) : buffer :=
  let sValue := BN_of_buffer s in
  let s :=
    if sValue >? secp256k1halfN
    then BN_toBuffer (secp256k1N - sValue)
    else s in
  setLengthLeft s 32.

Section Signer.

(** [recoverAddress txHash v r s] stands for lines 246-248:
    [getAddress(bufferToHex(pubToAddress(ecrecover(toBuffer(txHash),
    v, r, s))))], any step of which may throw. *)
Variable recoverAddress : string -> Z -> buffer -> buffer -> outcome string.

(** [ethers.utils.getAddress]: the checksummed form, or an exception. *)
Variable getAddress : string -> outcome string.

(** [sign] from the raw signature on (after the [await]); the triple
    is the [{r, s, v}] handed to [serializeTransaction]. *)
Definition sign_signature (address txHash : string) (signature : buffer)
    : outcome (buffer * buffer * Z) :=
  (let r := setLengthLeft (slice signature 0 32) 32 in
   let s := slice signature 32 64 in
   let s := normalize_s s in
   let v := 27 in
   let* recoveredEthAddr := recoverAddress txHash v r s in
   let* target := getAddress address in
   if negb (String.eqb target recoveredEthAddr) then
     let v := 28 in
     let* recoveredEthAddr := recoverAddress txHash v r s in
     Ok (r, s, v)
   else Ok (r, s, v))%js.

End Signer.

(** The two halves [sign] hands to the recovery and to the serializer. *)
Definition r_of (signature : buffer) : buffer :=
  setLengthLeft (slice signature 0 32) 32.

Definition s_of (signature : buffer) : buffer :=
  normalize_s (slice signature 32 64).

(** [account.address = address] as a function on the account. *)
Definition set_address (address : string) (account : Account) : Account :=
  {| index := index account; address := address |}.

(** [getAddresses()]. *)
Definition getAddresses (accs : list Account) : list string :=
  map address accs.

(** The promise of an [async] method: not settled, fulfilled, or rejected
    by an exception thrown in its body. *)
Inductive settled (A : Type) : Type :=
  | Waiting
  | Fulfilled (a : A)
  | Rejected (e : exn).
Arguments Waiting {A}.
Arguments Fulfilled {A} a.
Arguments Rejected {A} e.

Section SignCall.

Variable recoverAddress : string -> Z -> buffer -> buffer -> outcome string.
Variable getAddress : string -> outcome string.

(** [sign(address, transaction)], with [txHash] standing for
    [keccak256(serializeTransaction(transaction))].  The result is the
    state of the promise once [inbound] has been received, the directory
    after the call, and the packets written to the device. *)
Definition sign (address txHash : string) (accs : list Account)
    (inbound : list buffer)
    : settled (buffer * buffer * Z) * list Account * list js_bytes :=
  let '(found, accs') := getAddressIndex address accs in
  match found with
  | Throw e => (Rejected e, accs', [])
  | Ok index =>
      let packet :=
        sign_request index (Buffer_from_hex (substring_from 2 txHash)) in
      match Key.sign inbound with
      | Resolved signature =>
          match sign_signature recoverAddress getAddress address txHash
                  signature with
          | Ok rsv => (Fulfilled rsv, accs', [packet])
          | Throw e => (Rejected e, accs', [packet])
          end
      | Pending | ListenerThrew _ => (Waiting, accs', [packet])
      end
  end.

End SignCall.

End Wallet.

(** ** Sample data: packets, accounts and a raw signature *)

Module Sample.

Import Key.

(** A response packet: the tag, the payload, zeros up to the report size. *)
Definition packet (tag : byte) (payload : buffer) : buffer :=
  take HID_PACKET_SIZE (tag :: payload ++ replicate HID_PACKET_SIZE x00).

Definition address_A : buffer := replicate 20 x11.
Definition address_B : buffer := replicate 20 x22.

Definition done_packet : buffer := packet RES.DONE [].
Definition sign_packet_r : buffer := packet RES.SIGN (replicate 32 x0a).
Definition sign_packet_s : buffer := packet RES.SIGN (replicate 32 x0b).
Definition sign_packet_extra : buffer := packet RES.SIGN (replicate 32 x0c).
Definition key_created_packet : buffer := packet RES.KEY_CREATED address_A.

(** The packets [{1,A},{0xFF,...}] and [{2,B}], each with the sentinel
    after its entry. *)
Definition dump_packet_1 : buffer :=
  packet RES.DUMP_KEYS (x01 :: address_A ++ [xff]).
Definition dump_packet_2 : buffer :=
  packet RES.DUMP_KEYS (x02 :: address_B ++ [xff]).

(** The second packet without the sentinel: zeros follow the entry. *)
Definition dump_packet_2_padded : buffer :=
  packet RES.DUMP_KEYS (x02 :: address_B).

Definition account1 : Account :=
  {| index := x01;
     address := "0x1111111111111111111111111111111111111111" |}.
Definition account2 : Account :=
  {| index := x02;
     address := "0x2222222222222222222222222222222222222222" |}.

(** A raw signature made with the key of another account: both
    candidates recover addresses of that other key. *)
Definition other_key_recovery (txHash : string) (v : Z) (r s : buffer)
    : outcome string :=
  if v =? 27
  then Ok "0x2222222222222222222222222222222222222222"%string
  else Ok "0x3333333333333333333333333333333333333333"%string.

(** The checksummed form of an address without letters is itself. *)
Definition getAddress_digits (address : string) : outcome string :=
  Ok address.

Definition raw_signature : buffer :=
  replicate 32 x01 ++ replicate 32 x02.

(** An [s] half above the half order, and one below it. *)
Definition s_high : buffer := be_bytes 32 (secp256k1N - 5).
Definition s_low : buffer := be_bytes 32 5.

(** An [s] half that is not below the group order. *)
Definition s_over : buffer := be_bytes 32 (secp256k1N + 7).

(** A digest and its hash string. *)
Definition digest_ab : buffer := replicate 32 xab.
Definition txHash_ab : string := hex0x digest_ab.

(** A raw signature made with the key of the account asked for: the
    first candidate recovers its address. *)
Definition own_key_recovery (txHash : string) (v : Z) (r s : buffer)
    : outcome string :=
  Ok "0x1111111111111111111111111111111111111111"%string.

(** A recovery that fails, as [ecrecover] does on a malformed
    signature. *)
Definition failing_recovery (txHash : string) (v : Z) (r s : buffer)
    : outcome string :=
  Throw (Error "Invalid signature").

End Sample.

(** * Properties *)

(** ** The inbound stream up to DONE *)

Section KeyStream.

Import Key.

Lemma omap_cons_case {A B : Type} (f : A -> option B) x l :
  omap f (x :: l)
  = match f x with Some y => y :: omap f l | None => omap f l end.
Proof. reflexivity. Qed.

Lemma sign_run_before_done pre dn post res :
  before_done pre -> is_done dn = true ->
  sign_run res (pre ++ dn :: post)
  = sign_onDone (res ++ omap sign_payload pre).
Proof.
  intros Hpre Hdn. revert res.
  induction Hpre as [|data pre Hdata _ IH]; intros res;
    cbn [app sign_run listAccounts_run].
  - unfold is_done in Hdn.
    destruct (on_data dn) as [[]|]; try discriminate.
    by rewrite app_nil_r.
  - rewrite omap_cons_case. unfold is_done in Hdata.
    unfold sign_payload at 1.
    destruct (on_data data) as [[]|]; try discriminate; rewrite IH; try done.
    by rewrite <- app_assoc.
Qed.

Lemma createKey_run_before_done pre dn post address armed :
  before_done pre -> is_done dn = true ->
  createKey_run address armed (pre ++ dn :: post)
  = Resolved
      (if armed then
         match omap key_created_payload pre with
         | [] => address
         | buff :: _ => Some (hex0x (slice buff 0 ETH_ADDRESS_SIZE))
         end
       else address).
Proof.
  intros Hpre Hdn. revert address armed.
  induction Hpre as [|data pre Hdata _ IH]; intros address armed;
    cbn [app createKey_run].
  - unfold is_done in Hdn.
    destruct (on_data dn) as [[]|]; try discriminate.
    by destruct armed.
  - rewrite omap_cons_case. unfold is_done in Hdata.
    unfold key_created_payload at 1.
    destruct (on_data data) as [[]|]; try discriminate;
      try (rewrite IH; done).
    destruct armed; rewrite IH; done.
Qed.

Lemma listAccounts_run_before_done pre dn post res :
  before_done pre -> is_done dn = true ->
  listAccounts_run res (pre ++ dn :: post)
  = listAccounts_onDone (res ++ omap dump_keys_payload pre).
Proof.
  intros Hpre Hdn. revert res.
  induction Hpre as [|data pre Hdata _ IH]; intros res;
    cbn [app sign_run listAccounts_run].
  - unfold is_done in Hdn.
    destruct (on_data dn) as [[]|]; try discriminate.
    by rewrite app_nil_r.
  - rewrite omap_cons_case. unfold is_done in Hdata.
    unfold dump_keys_payload at 1.
    destruct (on_data data) as [[]|]; try discriminate; rewrite IH; try done.
    by rewrite <- app_assoc.
Qed.

(** The payload handed to a listener is the packet without its tag. *)
Lemma on_data_payload data ev :
  on_data data = Some ev ->
  match ev with
  | ev_key_created buff | ev_dump_keys buff | ev_sign buff =>
      buff = drop 1 data
  | ev_done => True
  end.
Proof.
  unfold on_data. destruct (data !! 0%nat) as [tag|]; [|done].
  repeat (case (Byte.eqb tag _); [intros [= <-]; done|]). done.
Qed.

Lemma payload_length (f : buffer -> option buffer) pre :
  (forall data buff, f data = Some buff -> buff = drop 1 data) ->
  hid_sized pre ->
  Forall (fun buff => length buff = 63%nat) (omap f pre).
Proof.
  intros Hf Hsz. induction Hsz as [|data pre Hdata _ IH]; simpl; [done|].
  destruct (f data) as [buff|] eqn:E; [|done].
  constructor; [|done].
  apply Hf in E as ->. rewrite length_drop, Hdata. done.
Qed.

Lemma sign_payload_drop data buff :
  sign_payload data = Some buff -> buff = drop 1 data.
Proof.
  unfold sign_payload. destruct (on_data data) as [[]|] eqn:E; try done.
  intros [= <-]. exact (on_data_payload _ _ E).
Qed.

Lemma key_created_payload_drop data buff :
  key_created_payload data = Some buff -> buff = drop 1 data.
Proof.
  unfold key_created_payload.
  destruct (on_data data) as [[]|] eqn:E; try done.
  intros [= <-]. exact (on_data_payload _ _ E).
Qed.

Lemma dump_keys_payload_drop data buff :
  dump_keys_payload data = Some buff -> buff = drop 1 data.
Proof.
  unfold dump_keys_payload.
  destruct (on_data data) as [[]|] eqn:E; try done.
  intros [= <-]. exact (on_data_payload _ _ E).
Qed.

End KeyStream.

(** ** Key.sign *)

Section KeySign.

Import Key.

Lemma slice_0 (buff : buffer) n : slice buff 0 n = take n buff.
Proof. unfold slice. by rewrite drop_0, Nat.sub_0_r. Qed.

(** What [sign] resolves with is decided by the SIGN payloads that came
    before DONE. *)
Lemma sign_before_done pre dn post :
  before_done pre -> is_done dn = true ->
  sign (pre ++ dn :: post) = sign_onDone (omap sign_payload pre).
Proof.
  intros Hpre Hdn. unfold sign.
  by rewrite sign_run_before_done.
Qed.

Lemma sign_onDone_two P1 P2 more :
  sign_onDone (P1 :: P2 :: more) = Resolved (take 32 P1 ++ take 32 P2).
Proof. unfold sign_onDone. simpl. by rewrite !slice_0. Qed.

Lemma sign_onDone_short res :
  (length res < 2)%nat -> sign_onDone res = ListenerThrew TypeError.
Proof.
  destruct res as [|P1 [|P2 more]]; simpl; intros H; try done. lia.
Qed.

(** C7. When exactly two SIGN packets, with payloads [P1] then [P2],
    arrive before DONE, [Key.sign] resolves with the first 32 bytes of
    [P1] followed by the first 32 bytes of [P2]; with packets of the HID
    report size this raw signature has 64 bytes. *)
Theorem sign_two_packets pre dn post P1 P2 :
  before_done pre -> is_done dn = true ->
  hid_sized pre ->
  omap sign_payload pre = [P1; P2] ->
  sign (pre ++ dn :: post) = Resolved (take 32 P1 ++ take 32 P2)
  /\ length (take 32 P1 ++ take 32 P2) = 64%nat.
Proof.
  intros Hpre Hdn Hsz Hres. split.
  - rewrite sign_before_done, Hres by done. apply sign_onDone_two.
  - pose proof (payload_length sign_payload pre sign_payload_drop Hsz) as Hl.
    rewrite Hres in Hl.
    apply Forall_cons in Hl as [H1 Hl]. apply Forall_cons in Hl as [H2 _].
    rewrite length_app, !length_take, H1, H2. done.
Qed.

Lemma sign_two_packets_witness :
  sign ([Sample.sign_packet_r; Sample.sign_packet_s]
          ++ Sample.done_packet :: [])
  = Resolved (take 32 (drop 1 Sample.sign_packet_r)
                ++ take 32 (drop 1 Sample.sign_packet_s))
  /\ length (take 32 (drop 1 Sample.sign_packet_r)
               ++ take 32 (drop 1 Sample.sign_packet_s)) = 64%nat.
Proof.
  apply sign_two_packets.
  - repeat constructor.
  - reflexivity.
  - repeat constructor.
  - reflexivity.
Defined.

(** C3, as amended. With fewer than two SIGN packets before DONE the
    ['done'] listener throws a TypeError and the promise is never
    resolved; with two or more, [Key.sign] resolves with the first 32
    bytes of each of the first two and ignores the others. *)
Theorem sign_packet_count pre dn post :
  before_done pre -> is_done dn = true ->
  ((length (omap sign_payload pre) < 2)%nat ->
     sign (pre ++ dn :: post) = ListenerThrew TypeError)
  /\ (forall P1 P2 more, omap sign_payload pre = P1 :: P2 :: more ->
        sign (pre ++ dn :: post) = Resolved (take 32 P1 ++ take 32 P2)).
Proof.
  intros Hpre Hdn. rewrite sign_before_done by done. split.
  - apply sign_onDone_short.
  - intros P1 P2 more ->. apply sign_onDone_two.
Qed.

Lemma sign_packet_count_witness :
  sign ([] ++ Sample.done_packet :: []) = ListenerThrew TypeError
  /\ sign ([Sample.sign_packet_r] ++ Sample.done_packet :: [])
     = ListenerThrew TypeError
  /\ sign ([Sample.sign_packet_r; Sample.sign_packet_s;
             Sample.sign_packet_extra] ++ Sample.done_packet :: [])
     = Resolved (take 32 (drop 1 Sample.sign_packet_r)
                   ++ take 32 (drop 1 Sample.sign_packet_s)).
Proof.
  split; [|split].
  - apply (sign_packet_count [] Sample.done_packet []);
      [constructor | reflexivity | simpl; lia].
  - apply (sign_packet_count [Sample.sign_packet_r] Sample.done_packet []);
      [repeat constructor | reflexivity | simpl; lia].
  - eapply (sign_packet_count
              [Sample.sign_packet_r; Sample.sign_packet_s;
               Sample.sign_packet_extra] Sample.done_packet []);
      [repeat constructor | reflexivity | reflexivity].
Defined.

(** Three SIGN packets before DONE: the count is not two, and [sign] is
    resolved all the same. *)
Lemma sign_three_packets_resolves :
  ~ (forall pre dn post,
       before_done pre -> is_done dn = true ->
       length (omap sign_payload pre) <> 2%nat ->
       forall signature, sign (pre ++ dn :: post) <> Resolved signature).
Proof.
  intros H.
  eapply (H [Sample.sign_packet_r; Sample.sign_packet_s;
             Sample.sign_packet_extra] Sample.done_packet []).
  - repeat constructor.
  - reflexivity.
  - simpl. lia.
  - reflexivity.
Qed.

End KeySign.

(** ** Key.createKey *)

Section KeyCreateKey.

Import Key.

(** C8. [createKey] resolves at DONE: with the address carried by the
    first KEY_CREATED packet seen before it (the first 20 bytes of its
    payload, as a hex string), or with null when there was none. *)
Theorem createKey_first_or_null pre dn post :
  before_done pre -> is_done dn = true ->
  (omap key_created_payload pre = [] ->
     createKey (pre ++ dn :: post) = Resolved None)
  /\ (forall buff more, omap key_created_payload pre = buff :: more ->
        createKey (pre ++ dn :: post)
        = Resolved (Some (hex0x (take ETH_ADDRESS_SIZE buff)))
        /\ (hid_sized pre -> length (take ETH_ADDRESS_SIZE buff) = 20%nat)).
Proof.
  intros Hpre Hdn. unfold createKey.
  rewrite createKey_run_before_done by done. split.
  - by intros ->.
  - intros buff more E. rewrite E, slice_0. split; [done|].
    intros Hsz.
    pose proof (payload_length key_created_payload pre
                  key_created_payload_drop Hsz) as Hl.
    rewrite E in Hl. apply Forall_cons in Hl as [H1 _].
    rewrite length_take, H1. done.
Qed.

Lemma createKey_first_or_null_witness :
  createKey ([] ++ Sample.done_packet :: []) = Resolved None
  /\ createKey ([Sample.key_created_packet] ++ Sample.done_packet :: [])
     = Resolved (Some "0x1111111111111111111111111111111111111111"%string).
Proof.
  split.
  - apply (createKey_first_or_null [] Sample.done_packet []);
      [constructor | reflexivity | reflexivity].
  - destruct (createKey_first_or_null [Sample.key_created_packet]
                Sample.done_packet []) as [_ Hfirst];
      [repeat constructor | reflexivity |].
    destruct (Hfirst (drop 1 Sample.key_created_packet) [] eq_refl)
      as [Hres _].
    exact Hres.
Defined.

End KeyCreateKey.

(** ** Key.listAccounts *)

Section KeyListAccounts.

Import Key.

Lemma byte_eqb_refl b : Byte.eqb b b = true.
Proof. by apply Byte.byte_dec_lb. Qed.

Lemma byte_eqb_ne b c : b <> c -> Byte.eqb b c = false.
Proof.
  intros Hne. destruct (Byte.eqb b c) eqn:E; [|done].
  by apply Byte.byte_dec_bl in E.
Qed.

(** The loop, started at the beginning of a well-formed rest of payload,
    pushes the entries of that rest. *)
Lemma scan_entries p l :
  entries p l ->
  forall pfx addresses fuel,
    (length p < fuel)%nat ->
    scan fuel (pfx ++ p) (length pfx) addresses = Some (addresses ++ l).
Proof.
  induction 1 as [|rest|idx addr rest l Hidx Haddr _ IH];
    intros pfx addresses [|fuel] Hfuel; try (simpl in Hfuel; lia);
    cbn [scan].
  - rewrite lookup_ge_None_2 by (rewrite length_app; simpl; lia).
    by rewrite app_nil_r.
  - rewrite list_lookup_middle by done. cbn [Byte.eqb]. simpl.
    by rewrite app_nil_r.
  - rewrite list_lookup_middle by done.
    rewrite byte_eqb_ne by done.
    assert (Hslice : slice (pfx ++ idx :: addr ++ rest) (length pfx + 1)
                       (length pfx + 1 + ETH_ADDRESS_SIZE) = addr).
    { unfold slice.
      replace (pfx ++ idx :: addr ++ rest)
        with ((pfx ++ [idx]) ++ addr ++ rest)
        by (by rewrite <- app_assoc).
      rewrite drop_app_length' by (rewrite length_app; simpl; lia).
      replace (length pfx + 1 + ETH_ADDRESS_SIZE - (length pfx + 1))%nat
        with (length addr) by lia.
      by rewrite take_app_length. }
    rewrite Hslice.
    replace (pfx ++ idx :: addr ++ rest) with ((pfx ++ idx :: addr) ++ rest)
      by (by rewrite <- app_assoc).
    replace (length pfx + 1 + ETH_ADDRESS_SIZE)%nat
      with (length (pfx ++ idx :: addr))
      by (rewrite length_app; simpl; lia).
    rewrite IH by (simpl in Hfuel; rewrite length_app in Hfuel; lia).
    by rewrite <- app_assoc.
Qed.

Lemma scan_packet_entries p l addresses :
  entries p l -> scan_packet addresses p = Some (addresses ++ l).
Proof.
  intros H. unfold scan_packet.
  apply (scan_entries p l H [] addresses). lia.
Qed.

Lemma forEach_scan_entries res per_packet addresses :
  Forall2 entries res per_packet ->
  forEach_scan res addresses = Some (addresses ++ concat per_packet).
Proof.
  intros H. revert addresses.
  induction H as [|p l res per_packet Hp _ IH]; intros addresses; simpl.
  - by rewrite app_nil_r.
  - rewrite (scan_packet_entries p l) by done.
    rewrite IH. by rewrite <- app_assoc.
Qed.

(** The loop always ends: from index [i] it makes at most
    [length buff - i] more iterations. *)
Lemma scan_total fuel buff i addresses :
  (length buff - i < fuel)%nat -> is_Some (scan fuel buff i addresses).
Proof.
  revert i addresses.
  induction fuel as [|fuel IH]; intros i addresses Hfuel; [lia|].
  cbn [scan]. destruct (buff !! i) as [idx|] eqn:E; [|done].
  destruct (Byte.eqb idx xff); [done|].
  apply lookup_lt_Some in E.
  apply IH. unfold ETH_ADDRESS_SIZE. lia.
Qed.

Lemma forEach_scan_total res addresses :
  is_Some (forEach_scan res addresses).
Proof.
  revert addresses. induction res as [|buff res IH]; intros addresses;
    simpl; [done|].
  destruct (scan_total (S (length buff)) buff 0 addresses) as [a Ha];
    [lia|].
  unfold scan_packet. rewrite Ha. apply IH.
Qed.

(** [listAccounts] never runs out of fuel, and it is resolved as soon
    as DONE has arrived. *)
Lemma listAccounts_total pre dn post :
  before_done pre -> is_done dn = true ->
  exists addresses,
    listAccounts (pre ++ dn :: post) = Some (Resolved addresses).
Proof.
  intros Hpre Hdn. unfold listAccounts.
  rewrite listAccounts_run_before_done by done.
  unfold listAccounts_onDone.
  destruct (forEach_scan_total ([] ++ omap dump_keys_payload pre) [])
    as [a ->].
  by exists a.
Qed.

(** A payload made of whole (index, address) tuples has entries; this
    covers the 63 payload bytes of a HID report. *)
Lemma entries_aligned k p :
  length p = (21 * k)%nat -> exists l, entries p l.
Proof.
  revert p. induction k as [|k IH]; intros p Hlen.
  - destruct p; [|simpl in Hlen; lia]. exists []. constructor.
  - destruct p as [|idx rest]; [simpl in Hlen; lia|].
    destruct (Byte.eqb idx xff) eqn:Hidx.
    + apply Byte.byte_dec_bl in Hidx as ->. exists []. constructor.
    + apply Byte.eqb_false in Hidx. simpl in Hlen.
      destruct (IH (drop 20 rest)) as [l Hl];
        [rewrite length_drop; lia|].
      exists ({| index := idx; address := hex0x (take 20 rest) |} :: l).
      rewrite <- (take_drop 20 rest) at 1.
      constructor; [done| |done].
      rewrite length_take. unfold ETH_ADDRESS_SIZE. lia.
Qed.

(** The payloads of packets of the HID report size all have entries. *)
Lemma entries_hid_sized pre :
  hid_sized pre ->
  exists per_packet, Forall2 entries (omap dump_keys_payload pre) per_packet.
Proof.
  intros Hsz.
  pose proof (payload_length dump_keys_payload pre
                dump_keys_payload_drop Hsz) as Hl.
  induction Hl as [|p ps Hp _ [per_packet IH]].
  - exists []. constructor.
  - destruct (entries_aligned 3 p Hp) as [l Hent].
    exists (l :: per_packet). by constructor.
Qed.

(** C6. When the DUMP_KEYS payloads received before DONE split into
    (index byte, 20 address bytes) entries, each payload ended by the
    index byte 0xFF or by its own end, [listAccounts] resolves with the
    entries of all the payloads, concatenated in arrival order; the
    payloads of packets of the HID report size always split so. *)
Theorem listAccounts_concat_entries pre dn post :
  before_done pre -> is_done dn = true ->
  (forall per_packet,
     Forall2 entries (omap dump_keys_payload pre) per_packet ->
     listAccounts (pre ++ dn :: post) = Some (Resolved (concat per_packet)))
  /\ (hid_sized pre ->
      exists per_packet,
        Forall2 entries (omap dump_keys_payload pre) per_packet).
Proof.
  intros Hpre Hdn. split.
  - intros per_packet Hent. unfold listAccounts.
    rewrite listAccounts_run_before_done by done.
    unfold listAccounts_onDone.
    by rewrite (forEach_scan_entries _ per_packet).
  - apply entries_hid_sized.
Qed.

Lemma listAccounts_concat_entries_witness :
  listAccounts ([Sample.dump_packet_1; Sample.dump_packet_2]
                  ++ Sample.done_packet :: [])
  = Some (Resolved (concat [[Sample.account1]; [Sample.account2]])).
Proof.
  apply (listAccounts_concat_entries
           [Sample.dump_packet_1; Sample.dump_packet_2]
           Sample.done_packet []).
  - repeat constructor.
  - reflexivity.
  - repeat constructor.
    + apply (entries_cons x01 Sample.address_A (xff :: replicate 41 x00) []);
        [discriminate | reflexivity | constructor].
    + apply (entries_cons x02 Sample.address_B (xff :: replicate 41 x00) []);
        [discriminate | reflexivity | constructor].
Defined.

(** The reassembly example for all addresses [A] and [B]: a packet with
    the entry [{1,A}] and then the sentinel, a packet with the entry
    [{2,B}] that ends there or goes on with the sentinel, then DONE. *)
Lemma listAccounts_reassembly A B junk tail :
  length A = 20%nat -> length B = 20%nat ->
  tail = [] \/ (exists junk', tail = xff :: junk') ->
  listAccounts [RES.DUMP_KEYS :: x01 :: A ++ xff :: junk;
                RES.DUMP_KEYS :: x02 :: B ++ tail;
                [RES.DONE]]
  = Some (Resolved [ {| index := x01; address := hex0x A |};
                     {| index := x02; address := hex0x B |} ]).
Proof.
  intros HA HB Htail. unfold listAccounts. simpl.
  unfold listAccounts_onDone.
  rewrite (forEach_scan_entries _
             [[ {| index := x01; address := hex0x A |} ];
              [ {| index := x02; address := hex0x B |} ]]); [done|].
  repeat constructor; try done.
  destruct Htail as [->|[junk' ->]]; constructor.
Qed.

(** Zeros after the last entry are not a sentinel: they are read as
    entries of slot 0. *)
Lemma listAccounts_zero_padding :
  listAccounts [Sample.dump_packet_1; Sample.dump_packet_2_padded;
                Sample.done_packet]
  = Some (Resolved
      [ Sample.account1; Sample.account2;
        {| index := x00;
           address := "0x0000000000000000000000000000000000000000" |};
        {| index := x00;
           address := "0x0000000000000000000000000000000000000000" |} ]).
Proof. reflexivity. Qed.

End KeyListAccounts.

(** ** Wallet.getAddressIndex and Wallet.deleteAddress *)

Section WalletDirectory.

Import Key Wallet Sample.

(** With a truthy string the callback accepts the first element it is
    given, whatever its address was. *)
Lemma find_callback_truthy address a rest :
  truthy address = true ->
  find (getAddressIndex_callback address) (a :: rest)
  = (Some (set_address address a), set_address address a :: rest).
Proof. intros H. simpl. by rewrite H. Qed.

(** With the empty string the callback rejects every element, after
    writing to each of them. *)
Lemma find_callback_falsy address accs :
  truthy address = false ->
  find (getAddressIndex_callback address) accs
  = (None, map (set_address address) accs).
Proof.
  intros H. induction accs as [|a rest IH]; simpl; [done|].
  rewrite H. simpl in IH. by rewrite IH.
Qed.

Lemma toLowerCase_truthy s : truthy (toLowerCase s) = truthy s.
Proof. by destruct s. Qed.

Lemma getAddressIndex_nonempty address a rest :
  truthy address = true ->
  getAddressIndex address (a :: rest)
  = (Ok (index a), set_address (toLowerCase address) a :: rest).
Proof.
  intros H. unfold getAddressIndex.
  rewrite find_callback_truthy by (by rewrite toLowerCase_truthy).
  done.
Qed.

Lemma getAddressIndex_empty_string address accs :
  truthy address = false ->
  getAddressIndex address accs
  = (Throw (Error "Account not found"),
     map (set_address (toLowerCase address)) accs).
Proof.
  intros H. unfold getAddressIndex.
  rewrite find_callback_falsy by (by rewrite toLowerCase_truthy).
  done.
Qed.

(** C1, on the code. In a directory of two accounts the lookup of the
    second account's address returns the slot of the first, and so does
    the lookup of an address no account has: the answer is the first
    slot, not the matching one, and no not-found error is raised. *)
Theorem getAddressIndex_returns_first_slot :
  fst (getAddressIndex "0x2222222222222222222222222222222222222222"
         [account1; account2]) = Ok x01
  /\ fst (getAddressIndex "0x3333333333333333333333333333333333333333"
            [account1; account2]) = Ok x01.
Proof. split; reflexivity. Qed.

(** A lookup of the address the first account already has, here in
    upper case, leaves the directory as it was. *)
Lemma getAddressIndex_may_keep_directory :
  ~ (forall (address : string) (a : Account) (rest : list Account),
       snd (getAddressIndex address (a :: rest)) <> a :: rest).
Proof.
  intros H.
  apply (H "0XAB" {| index := x01; address := "0xab" |} []).
  reflexivity.
Qed.

(** C9, as amended. On a non-empty directory the lookup writes the
    lower-cased query into the address of the first account and keeps its
    index (the other accounts are kept as they are, or all get the empty
    address when the query is empty); the directory is changed whenever
    the address of the first account was not the lower-cased query
    already. *)
Theorem getAddressIndex_overwrites_first address a rest :
  snd (getAddressIndex address (a :: rest))
  = {| index := index a; address := toLowerCase address |}
    :: (if truthy address then rest
        else map (set_address (toLowerCase address)) rest)
  /\ (Key.address a <> toLowerCase address ->
      snd (getAddressIndex address (a :: rest)) <> a :: rest).
Proof.
  destruct (truthy address) eqn:E.
  - rewrite getAddressIndex_nonempty by done.
    split; [done|].
    intros Hne [= Heq]. apply Hne. by rewrite <- Heq.
  - rewrite getAddressIndex_empty_string by done.
    split; [done|].
    intros Hne [= Heq]. apply Hne. by rewrite <- Heq.
Qed.

Lemma getAddressIndex_overwrites_first_witness :
  snd (getAddressIndex "0x2222222222222222222222222222222222222222"
         [account1; account2])
  = [ {| index := x01;
         address := "0x2222222222222222222222222222222222222222" |};
      account2 ]
  /\ snd (getAddressIndex "0x2222222222222222222222222222222222222222"
            [account1; account2]) <> [account1; account2].
Proof.
  destruct (getAddressIndex_overwrites_first
              "0x2222222222222222222222222222222222222222"
              account1 [account2]) as [Hpost Hchanged].
  split; [exact Hpost|].
  apply Hchanged. simpl. discriminate.
Defined.

(** C10. Where the global object has no property [address],
    [deleteAddress] throws a ReferenceError for that name in every state
    of the wallet, and leaves the state as it was: no DELETE packet is
    written and the directory is not touched. *)
Theorem deleteAddress_throws globalThis w :
  globalThis "address"%string = None ->
  deleteAddress globalThis w = (Throw (ReferenceError "address"), w).
Proof.
  intros Hg. unfold deleteAddress, resolve. simpl. by rewrite Hg.
Qed.

Lemma deleteAddress_throws_witness :
  deleteAddress (fun _ => None)
    {| accounts := [account1; account2]; written := [] |}
  = (Throw (ReferenceError "address"),
     {| accounts := [account1; account2]; written := [] |}).
Proof. apply deleteAddress_throws. reflexivity. Defined.

End WalletDirectory.

(** ** Buffers as big-endian numbers *)

Section BigEndian.

Lemma byte_val_range b : 0 <= byte_val b < 256.
Proof.
  unfold byte_val. pose proof (Byte.to_N_bounded b). lia.
Qed.

Lemma byte_val_of_Z z : 0 <= z < 256 -> byte_val (byte_of_Z z) = z.
Proof.
  intros Hz. unfold byte_val, byte_of_Z.
  destruct (Byte.of_N (Z.to_N z)) as [b|] eqn:E.
  - apply Byte.to_of_N in E. rewrite E. lia.
  - apply Byte.of_N_None_iff in E. lia.
Qed.

Lemma BN_of_buffer_snoc l b :
  BN_of_buffer (l ++ [b]) = BN_of_buffer l * 256 + byte_val b.
Proof. unfold BN_of_buffer. by rewrite fold_left_app. Qed.

Lemma BN_of_buffer_range l :
  0 <= BN_of_buffer l < 256 ^ Z.of_nat (length l).
Proof.
  induction l as [|b l IH] using rev_ind.
  - simpl. unfold BN_of_buffer. simpl. lia.
  - rewrite BN_of_buffer_snoc, length_app. simpl length.
    replace (Z.of_nat (length l + 1)) with (Z.succ (Z.of_nat (length l)))
      by lia.
    rewrite Z.pow_succ_r by lia.
    pose proof (byte_val_range b). lia.
Qed.

Lemma BN_of_buffer_zeros k l :
  BN_of_buffer (replicate k x00 ++ l) = BN_of_buffer l.
Proof.
  induction k as [|k IH]; [done|].
  unfold BN_of_buffer in *. simpl. exact IH.
Qed.

Lemma length_be_bytes n z : length (be_bytes n z) = n.
Proof.
  revert z. induction n as [|n IH]; intros z; simpl; [done|].
  rewrite length_app, IH. simpl. lia.
Qed.

Lemma BN_of_be_bytes n z :
  0 <= z -> BN_of_buffer (be_bytes n z) = z mod 256 ^ Z.of_nat n.
Proof.
  revert z. induction n as [|n IH]; intros z Hz.
  - simpl. by rewrite Z.mod_1_r.
  - cbn [be_bytes]. rewrite BN_of_buffer_snoc.
    rewrite IH by (apply Z.div_pos; lia).
    rewrite byte_val_of_Z by (apply Z.mod_pos_bound; lia).
    rewrite Nat2Z.inj_succ, Z.pow_succ_r by lia.
    rewrite Z.rem_mul_r by lia. lia.
Qed.

(** A number fits in the bytes [BN.byteLength] counts. *)
Lemma BN_byteLength_fits z :
  0 <= z -> z < 256 ^ Z.of_nat (Nat.max 1 (BN_byteLength z)).
Proof.
  intros Hz. unfold BN_byteLength. rewrite Z.abs_eq by done.
  destruct (Z.eqb_spec z 0) as [->|Hne]; [done|].
  assert (Hpos : 0 < z) by lia.
  pose proof (Z.log2_nonneg z) as Hlog.
  pose proof (Z.log2_spec z Hpos) as [_ Hlt].
  assert (Hdiv : 0 <= Z.log2 z / 8) by (apply Z.div_pos; lia).
  replace (Z.of_nat (Nat.max 1 (Z.to_nat (Z.log2 z / 8 + 1))))
    with (Z.log2 z / 8 + 1) by lia.
  change 256 with (2 ^ 8). rewrite <- Z.pow_mul_r by lia.
  eapply Z.lt_le_trans; [exact Hlt|].
  apply Z.pow_le_mono_r; [lia|].
  pose proof (Z.div_mod (Z.log2 z) 8 ltac:(lia)).
  pose proof (Z.mod_pos_bound (Z.log2 z) 8 ltac:(lia)). lia.
Qed.

Lemma BN_toBuffer_value z :
  0 <= z -> BN_of_buffer (BN_toBuffer z) = z.
Proof.
  intros Hz. unfold BN_toBuffer. rewrite Z.abs_eq by done.
  rewrite BN_of_be_bytes by done.
  apply Z.mod_small. split; [done|]. by apply BN_byteLength_fits.
Qed.

Lemma BN_toBuffer_length z :
  0 <= z < 2 ^ 256 -> (length (BN_toBuffer z) <= 32)%nat.
Proof.
  intros [Hz Hlt]. unfold BN_toBuffer. rewrite length_be_bytes.
  unfold BN_byteLength. rewrite Z.abs_eq by done.
  destruct (Z.eqb_spec z 0) as [->|Hne]; [lia|].
  assert (Hlog : Z.log2 z < 256) by (apply Z.log2_lt_pow2; lia).
  pose proof (Z.log2_nonneg z).
  assert (Z.log2 z / 8 <= 31) by (apply Z.lt_succ_r, Z.div_lt_upper_bound; lia).
  assert (0 <= Z.log2 z / 8) by (apply Z.div_pos; lia).
  lia.
Qed.

Lemma length_setLengthLeft msg len : length (setLengthLeft msg len) = len.
Proof.
  unfold setLengthLeft. destruct (Nat.ltb_spec (length msg) len).
  - rewrite length_app, length_replicate. lia.
  - rewrite length_drop. lia.
Qed.

Lemma BN_of_setLengthLeft msg len :
  (length msg <= len)%nat ->
  BN_of_buffer (setLengthLeft msg len) = BN_of_buffer msg.
Proof.
  intros Hlen. unfold setLengthLeft.
  destruct (Nat.ltb_spec (length msg) len).
  - apply BN_of_buffer_zeros.
  - replace (length msg - len)%nat with 0%nat by lia. by rewrite drop_0.
Qed.

Lemma setLengthLeft_exact msg len :
  length msg = len -> setLengthLeft msg len = msg.
Proof.
  intros <-. unfold setLengthLeft. rewrite Nat.ltb_irrefl.
  by rewrite Nat.sub_diag, drop_0.
Qed.

(** Every number below 2^256 is the value of a 32-byte buffer. *)
Lemma BN_of_be_bytes_32 z :
  0 <= z < 2 ^ 256 -> BN_of_buffer (be_bytes 32 z) = z.
Proof.
  intros [Hz Hlt]. rewrite BN_of_be_bytes by done.
  apply Z.mod_small. split; [done|].
  change (256 ^ Z.of_nat 32) with (2 ^ 256). done.
Qed.

End BigEndian.

(** ** Wallet.sign: the low-s rule *)

Section LowS.

Import Wallet.

Lemma secp256k1N_odd : secp256k1N = 2 * secp256k1halfN + 1.
Proof. reflexivity. Qed.

Lemma secp256k1N_lt_2_256 : secp256k1N < 2 ^ 256.
Proof. reflexivity. Qed.

(** [secp256k1halfN] rounds [N / 2] down; as [N] is odd, a whole number
    is above the one exactly when it is above the other. *)
Lemma above_half_order v : v > secp256k1halfN <-> 2 * v > secp256k1N.
Proof. rewrite secp256k1N_odd. lia. Qed.

(** The value and the size of the normalized [s]. *)
Lemma normalize_s_value s :
  (length s <= 32)%nat ->
  BN_of_buffer s < secp256k1N ->
  BN_of_buffer (normalize_s s)
  = (if BN_of_buffer s >? secp256k1halfN
     then secp256k1N - BN_of_buffer s
     else BN_of_buffer s).
Proof.
  intros Hlen HltN. unfold normalize_s.
  pose proof (BN_of_buffer_range s) as [H0 _].
  pose proof secp256k1N_lt_2_256.
  destruct (BN_of_buffer s >? secp256k1halfN) eqn:E.
  - rewrite BN_of_setLengthLeft by (apply BN_toBuffer_length; lia).
    apply BN_toBuffer_value. lia.
  - by apply BN_of_setLengthLeft.
Qed.

Lemma normalize_s_low s :
  (length s <= 32)%nat ->
  BN_of_buffer s < secp256k1N ->
  BN_of_buffer (normalize_s s) <= secp256k1halfN.
Proof.
  intros Hlen HltN. rewrite normalize_s_value by done.
  pose proof secp256k1N_odd.
  destruct (Z.gtb_spec (BN_of_buffer s) secp256k1halfN); lia.
Qed.

(** C4. For the [s] half of a raw signature (at most 32 bytes) whose
    value is in [0, N), the normalization yields [N - s] when [s > N/2]
    and [s] otherwise, in 32 bytes, and the value it yields is at most
    [N/2]. *)
Theorem normalize_s_range s :
  (length s <= 32)%nat ->
  0 <= BN_of_buffer s < secp256k1N ->
  (BN_of_buffer s > secp256k1N / 2 ->
     BN_of_buffer (normalize_s s) = secp256k1N - BN_of_buffer s)
  /\ (BN_of_buffer s <= secp256k1N / 2 ->
        BN_of_buffer (normalize_s s) = BN_of_buffer s)
  /\ BN_of_buffer (normalize_s s) <= secp256k1N / 2
  /\ length (normalize_s s) = 32%nat.
Proof.
  intros Hlen [_ HltN].
  fold secp256k1halfN.
  pose proof (normalize_s_value s Hlen HltN) as Hv.
  repeat split.
  - intros Hgt. rewrite Hv.
    destruct (Z.gtb_spec (BN_of_buffer s) secp256k1halfN); [done|lia].
  - intros Hle. rewrite Hv.
    destruct (Z.gtb_spec (BN_of_buffer s) secp256k1halfN); [lia|done].
  - by apply normalize_s_low.
  - apply length_setLengthLeft.
Qed.

Lemma normalize_s_range_witness :
  BN_of_buffer (normalize_s Sample.s_high) = 5
  /\ BN_of_buffer (normalize_s Sample.s_low) = 5.
Proof.
  split.
  - destruct (normalize_s_range Sample.s_high) as (Hhigh & _).
    + simpl. lia.
    + split; [apply Z.leb_le | apply Z.ltb_lt]; vm_compute; reflexivity.
    + rewrite Hhigh; [vm_compute; reflexivity|].
      apply Z.lt_gt, Z.ltb_lt. vm_compute. reflexivity.
  - destruct (normalize_s_range Sample.s_low) as (_ & Hlow & _).
    + simpl. lia.
    + split; [apply Z.leb_le | apply Z.ltb_lt]; vm_compute; reflexivity.
    + rewrite Hlow; [vm_compute; reflexivity|].
      apply Z.leb_le. vm_compute. reflexivity.
Defined.

(** C5. Normalizing an already normalized [s] changes nothing. *)
Theorem normalize_s_idempotent s :
  (length s <= 32)%nat ->
  0 <= BN_of_buffer s < secp256k1N ->
  normalize_s (normalize_s s) = normalize_s s.
Proof.
  intros Hlen [_ HltN].
  pose proof (normalize_s_low s Hlen HltN) as Hlow.
  assert (Hl : length (normalize_s s) = 32%nat)
    by apply length_setLengthLeft.
  unfold normalize_s at 1.
  destruct (Z.gtb_spec (BN_of_buffer (normalize_s s)) secp256k1halfN);
    [lia|].
  by apply setLengthLeft_exact.
Qed.

Lemma normalize_s_idempotent_witness :
  normalize_s (normalize_s Sample.s_high) = normalize_s Sample.s_high.
Proof.
  apply normalize_s_idempotent.
  - simpl. lia.
  - split; [apply Z.leb_le | apply Z.ltb_lt]; vm_compute; reflexivity.
Defined.

End LowS.

(** ** Wallet.sign: the recovery id *)

Section RecoveryId.

Import Wallet.

Variable recoverAddress : string -> Z -> buffer -> buffer -> outcome string.
Variable getAddress : string -> outcome string.

(** [v = 27] is kept exactly when the address recovered with it is the
    checksummed target. *)
Lemma sign_signature_27 address txHash signature target :
  recoverAddress txHash 27 (r_of signature) (s_of signature) = Ok target ->
  getAddress address = Ok target ->
  sign_signature recoverAddress getAddress address txHash signature
  = Ok (r_of signature, s_of signature, 27).
Proof.
  intros H27 Ht. unfold sign_signature. fold (r_of signature).
  fold (s_of signature). rewrite H27. simpl. rewrite Ht. simpl.
  by rewrite String.eqb_refl.
Qed.

(** When [v = 27] does not give the target, [v = 28] is taken as soon as
    the recovery with it does not throw; the address it gives is not
    compared with anything. *)
Lemma sign_signature_28 address txHash signature target a27 a28 :
  recoverAddress txHash 27 (r_of signature) (s_of signature) = Ok a27 ->
  getAddress address = Ok target ->
  target <> a27 ->
  recoverAddress txHash 28 (r_of signature) (s_of signature) = Ok a28 ->
  sign_signature recoverAddress getAddress address txHash signature
  = Ok (r_of signature, s_of signature, 28).
Proof.
  intros H27 Ht Hne H28. unfold sign_signature. fold (r_of signature).
  fold (s_of signature). rewrite H27. simpl. rewrite Ht. simpl.
  apply String.eqb_neq in Hne. rewrite Hne. simpl. by rewrite H28.
Qed.

End RecoveryId.

Section RecoveryIdMismatch.

Import Wallet Sample.

(** C2, on the code. For the target address 0x11..11 and a raw signature
    whose two candidates recover 0x22..22 and 0x33..33, [sign] throws
    nothing and hands [v = 28] to the serializer, although the address
    recovered with 28 is not the target. *)
Theorem sign_signature_accepts_mismatch :
  sign_signature other_key_recovery getAddress_digits
    "0x1111111111111111111111111111111111111111" "0x00" raw_signature
  = Ok (r_of raw_signature, s_of raw_signature, 28)
  /\ other_key_recovery "0x00" 28 (r_of raw_signature) (s_of raw_signature)
     <> getAddress_digits "0x1111111111111111111111111111111111111111".
Proof. split; [reflexivity|discriminate]. Qed.

End RecoveryIdMismatch.

(** * Further properties of the code *)

(** ** Key: requests and the inbound stream *)

Section KeyRequests.

Import Key.

Lemma length_sign_request_loop count i payload (buff : js_bytes) :
  length (sign_request_loop count i payload buff) = length buff.
Proof.
  revert i buff. induction count as [|count IH]; intros i buff; simpl;
    [done|].
  by rewrite IH, length_insert.
Qed.

Lemma sign_request_32 index payload :
  (32 <= length payload)%nat ->
  sign_request index payload
  = Some <$> (CMD.SIGN :: index :: take 32 payload ++ replicate 30 x00).
Proof.
  intros Hlen.
  do 32 (destruct payload as [|? payload]; [simpl in Hlen; lia|]).
  reflexivity.
Qed.

(** X1. The packet [sign] writes always has the 64 elements of a HID
    report; when the payload has at least 32 bytes, it is the SIGN code,
    the slot index, the first 32 bytes of the payload, and 30 zeros, with
    no element left undefined. *)
Theorem sign_request_layout index payload :
  length (sign_request index payload) = HID_PACKET_SIZE
  /\ ((32 <= length payload)%nat ->
      sign_request index payload
      = Some <$> (CMD.SIGN :: index :: take 32 payload ++ replicate 30 x00)).
Proof.
  split.
  - unfold sign_request. rewrite length_sign_request_loop.
    rewrite length_fmap. unfold request.
    by rewrite !length_insert, length_replicate.
  - apply sign_request_32.
Qed.

Lemma sign_request_layout_witness :
  length (sign_request x01 Sample.digest_ab) = HID_PACKET_SIZE
  /\ sign_request x01 Sample.digest_ab
     = Some <$> (CMD.SIGN :: x01 :: take 32 Sample.digest_ab
                   ++ replicate 30 x00).
Proof.
  destruct (sign_request_layout x01 Sample.digest_ab) as [Hlen Hlayout].
  split; [exact Hlen|]. apply Hlayout. simpl. lia.
Defined.






(** X3. What a call resolves with is fixed by the payloads of its own
    kind received before the first DONE: packets of other kinds, packets
    with an unknown tag and everything after the DONE have no effect. *)
Theorem outcome_fixed_by_own_payloads pre dn post pre' dn' post' :
  before_done pre -> is_done dn = true ->
  before_done pre' -> is_done dn' = true ->
  (omap sign_payload pre = omap sign_payload pre' ->
     sign (pre ++ dn :: post) = sign (pre' ++ dn' :: post'))
  /\ (head (omap key_created_payload pre)
      = head (omap key_created_payload pre') ->
        createKey (pre ++ dn :: post) = createKey (pre' ++ dn' :: post'))
  /\ (omap dump_keys_payload pre = omap dump_keys_payload pre' ->
        listAccounts (pre ++ dn :: post)
        = listAccounts (pre' ++ dn' :: post')).
Proof.
  intros Hpre Hdn Hpre' Hdn'. split; [|split].
  - intros E. unfold sign.
    rewrite !sign_run_before_done by done. by rewrite E.
  - intros E. unfold createKey.
    rewrite !createKey_run_before_done by done.
    destruct (omap key_created_payload pre),
      (omap key_created_payload pre'); simpl in E; congruence.
  - intros E. unfold listAccounts.
    rewrite !listAccounts_run_before_done by done. by rewrite E.
Qed.

Lemma outcome_fixed_by_own_payloads_witness :
  sign ([Sample.sign_packet_r; Sample.sign_packet_s]
          ++ Sample.done_packet :: [])
  = sign ([Sample.sign_packet_r; Sample.dump_packet_1;
           Sample.sign_packet_s]
            ++ Sample.done_packet :: [Sample.sign_packet_extra]).
Proof.
  apply (outcome_fixed_by_own_payloads
           [Sample.sign_packet_r; Sample.sign_packet_s]
           Sample.done_packet []
           [Sample.sign_packet_r; Sample.dump_packet_1;
            Sample.sign_packet_s]
           Sample.done_packet [Sample.sign_packet_extra]).
  - repeat constructor.
  - reflexivity.
  - repeat constructor.
  - reflexivity.
  - reflexivity.
Defined.

End KeyRequests.

(** ** Hex strings *)

Section HexStrings.

Lemma unhex_hex_digit_hi b :
  unhex (hex_digit (Byte.to_N b / 16)) = Some (Byte.to_N b / 16)%N.
Proof. destruct b; reflexivity. Qed.

Lemma unhex_hex_digit_lo b :
  unhex (hex_digit (Byte.to_N b mod 16)) = Some (Byte.to_N b mod 16)%N.
Proof. destruct b; reflexivity. Qed.

Lemma byte_of_nibbles b :
  byte_of_Z (Z.of_N (16 * (Byte.to_N b / 16) + Byte.to_N b mod 16)) = b.
Proof. destruct b; reflexivity. Qed.

Lemma lower_char_hex_digit_hi b :
  lower_char (hex_digit (Byte.to_N b / 16)) = hex_digit (Byte.to_N b / 16).
Proof. destruct b; reflexivity. Qed.

Lemma lower_char_hex_digit_lo b :
  lower_char (hex_digit (Byte.to_N b mod 16))
  = hex_digit (Byte.to_N b mod 16).
Proof. destruct b; reflexivity. Qed.

Lemma Buffer_from_hex_bytes buff :
  Buffer_from_hex (toString_hex buff) = buff.
Proof.
  induction buff as [|b rest IH]; [done|].
  cbn [toString_hex Buffer_from_hex].
  rewrite unhex_hex_digit_hi, unhex_hex_digit_lo, byte_of_nibbles.
  by rewrite IH.
Qed.

(** X4. Decoding the hex string of a buffer gives the buffer back, also
    behind the ["0x"] of an address or a hash:
    [Buffer.from(str.substring(2), 'hex')] of [`0x${buff.toString('hex')}`]
    is [buff]. *)
Theorem Buffer_from_hex_toString_hex buff :
  Buffer_from_hex (toString_hex buff) = buff
  /\ Buffer_from_hex (substring_from 2 (hex0x buff)) = buff.
Proof. split; apply Buffer_from_hex_bytes. Qed.

Lemma length_hex0x buff :
  String.length (hex0x buff) = (2 + 2 * length buff)%nat.
Proof.
  unfold hex0x. cbn [String.length]. do 2 f_equal.
  induction buff as [|b rest IH]; [done|].
  cbn [toString_hex String.length length]. rewrite IH. lia.
Qed.

(** X5. Two buffers with the same address string are the same buffer. *)
Theorem hex0x_injective A B : hex0x A = hex0x B -> A = B.
Proof.
  unfold hex0x. intros [= E].
  rewrite <- (Buffer_from_hex_bytes A).
  rewrite <- (Buffer_from_hex_bytes B).
  by rewrite E.
Qed.

Lemma hex0x_injective_witness : Sample.address_A = replicate 20 x11.
Proof. apply hex0x_injective. reflexivity. Defined.

Lemma toLowerCase_hex0x buff : toLowerCase (hex0x buff) = hex0x buff.
Proof.
  unfold hex0x. cbn [toLowerCase]. do 2 f_equal.
  induction buff as [|b rest IH]; [done|].
  cbn [toString_hex toLowerCase].
  by rewrite lower_char_hex_digit_hi, lower_char_hex_digit_lo, IH.
Qed.

Lemma BN_of_hex_from_toString_hex acc buff :
  BN_of_hex_from acc (toString_hex buff)
  = Some (fold_left (fun acc b => acc * 256 + byte_val b) buff acc).
Proof.
  revert acc. induction buff as [|b rest IH]; intros acc; [done|].
  cbn [toString_hex BN_of_hex_from fold_left].
  rewrite unhex_hex_digit_hi. cbn [BN_of_hex_from].
  rewrite unhex_hex_digit_lo. rewrite IH. do 2 f_equal.
  unfold byte_val.
  pose proof (N.div_mod (Byte.to_N b) 16 ltac:(lia)) as Hdm.
  set (hi := (Byte.to_N b / 16)%N) in *.
  set (lo := (Byte.to_N b mod 16)%N) in *.
  lia.
Qed.

(** X6. The number [sign] reads from the hex string of the [s] half is
    the big-endian value of the buffer: [new BN(s.toString('hex'), 16)]
    is [BN_of_buffer s]. *)
Theorem BN_of_hex_toString_hex s :
  BN_of_hex (toString_hex s) = Some (BN_of_buffer s).
Proof. apply BN_of_hex_from_toString_hex. Qed.

End HexStrings.

(** ** Key.listAccounts: what the accounts look like *)

Section KeyAccountsShape.

Import Key.

Lemma scan_scanned fuel buff i addresses result :
  Forall scanned addresses ->
  scan fuel buff i addresses = Some result ->
  Forall scanned result.
Proof.
  revert i addresses.
  induction fuel as [|fuel IH]; intros i addresses Hacc; cbn [scan];
    [done|].
  destruct (buff !! i) as [idx|]; [|by intros [= <-]].
  destruct (Byte.eqb idx xff) eqn:E; [by intros [= <-]|].
  apply IH. apply Forall_app. split; [done|].
  constructor; [|done]. split.
  - simpl. by apply Byte.eqb_false.
  - eexists. split; [|reflexivity].
    unfold slice. rewrite length_take. unfold ETH_ADDRESS_SIZE. lia.
Qed.

Lemma forEach_scan_scanned res addresses result :
  Forall scanned addresses ->
  forEach_scan res addresses = Some result ->
  Forall scanned result.
Proof.
  revert addresses. induction res as [|buff res IH]; intros addresses Hacc;
    cbn [forEach_scan]; [by intros [= <-]|].
  unfold scan_packet.
  destruct (scan (S (length buff)) buff 0 addresses) as [addresses'|] eqn:E;
    [|done].
  apply IH. by eapply scan_scanned.
Qed.

Lemma listAccounts_run_scanned res inbound accounts :
  listAccounts_run res inbound = Some (Resolved accounts) ->
  Forall scanned accounts.
Proof.
  revert res. induction inbound as [|data rest IH]; intros res;
    cbn [listAccounts_run]; [done|].
  destruct (on_data data) as [[]|]; try apply IH.
  unfold listAccounts_onDone.
  destruct (forEach_scan res []) as [addresses|] eqn:E; [|done].
  intros [= <-]. by eapply forEach_scan_scanned.
Qed.

(** X7. Whatever packets arrive, no account [listAccounts] returns has
    the slot index 0xFF, and every address it returns is ["0x"] followed
    by the hex digits of at most 20 bytes. *)
Theorem listAccounts_scanned inbound accounts :
  listAccounts inbound = Some (Resolved accounts) ->
  Forall scanned accounts.
Proof. apply listAccounts_run_scanned. Qed.

Lemma listAccounts_scanned_witness :
  Forall scanned [Sample.account1; Sample.account2].
Proof.
  apply (listAccounts_scanned
           [Sample.dump_packet_1; Sample.dump_packet_2; Sample.done_packet]).
  reflexivity.
Defined.

Lemma entries_count p l :
  entries p l ->
  (21 * length l <= length p)%nat
  /\ Forall (fun a => String.length (address a) = 42%nat) l.
Proof.
  induction 1 as [|rest|idx addr rest l Hidx Haddr _ [IHlen IHaddr]].
  - split; [simpl; lia|constructor].
  - split; [simpl; lia|constructor].
  - split.
    + simpl. rewrite length_app. unfold ETH_ADDRESS_SIZE in Haddr. lia.
    + constructor; [|done]. simpl address.
      rewrite length_hex0x. unfold ETH_ADDRESS_SIZE in Haddr. lia.
Qed.

Lemma per_packet_count res per_packet :
  Forall (fun buff => length buff = 63%nat) res ->
  Forall2 entries res per_packet ->
  (length (concat per_packet) <= 3 * length res)%nat
  /\ Forall (fun a => String.length (address a) = 42%nat)
       (concat per_packet).
Proof.
  intros Hlen H.
  induction H as [|p l res per_packet Hp _ IH]; [by split|].
  apply Forall_cons in Hlen as [Hp63 Hlen].
  destruct (IH Hlen) as [IHn IHa].
  destruct (entries_count p l Hp) as [Hn Ha].
  split.
  - simpl. rewrite length_app. lia.
  - simpl. apply Forall_app. by split.
Qed.

(** X8. With packets of the HID report size, [listAccounts] returns at
    most three accounts per DUMP_KEYS packet received before DONE, and
    every address it returns has 42 characters: ["0x"] and the 40 hex
    digits of 20 bytes. *)
Theorem listAccounts_hid_sized pre dn post accounts :
  before_done pre -> is_done dn = true -> hid_sized pre ->
  listAccounts (pre ++ dn :: post) = Some (Resolved accounts) ->
  (length accounts <= 3 * length (omap dump_keys_payload pre))%nat
  /\ Forall (fun a => String.length (address a) = 42%nat) accounts.
Proof.
  intros Hpre Hdn Hsz. unfold listAccounts.
  rewrite listAccounts_run_before_done by done.
  destruct (entries_hid_sized pre Hsz) as [per_packet Hent].
  unfold listAccounts_onDone.
  rewrite (forEach_scan_entries _ per_packet) by done.
  intros [= <-]. apply (per_packet_count (omap dump_keys_payload pre));
    [|done].
  by apply (payload_length dump_keys_payload pre dump_keys_payload_drop).
Qed.

Lemma listAccounts_hid_sized_witness :
  (length [Sample.account1; Sample.account2]
   <= 3 * length (omap dump_keys_payload
                    [Sample.dump_packet_1; Sample.dump_packet_2]))%nat
  /\ Forall (fun a => String.length (address a) = 42%nat)
       [Sample.account1; Sample.account2].
Proof.
  apply (listAccounts_hid_sized
           [Sample.dump_packet_1; Sample.dump_packet_2]
           Sample.done_packet []).
  - repeat constructor.
  - reflexivity.
  - repeat constructor.
  - reflexivity.
Defined.

(** X9. A payload that ends inside an entry is not refused: a DUMP_KEYS
    packet with an index byte and fewer than 20 bytes after it gives an
    account whose address is the hex string of the bytes that are there. *)
Theorem listAccounts_short_entry idx addr :
  idx <> xff -> (length addr <= 20)%nat ->
  listAccounts [RES.DUMP_KEYS :: idx :: addr; [RES.DONE]]
  = Some (Resolved [ {| index := idx; address := hex0x addr |} ]).
Proof.
  intros Hidx Hlen. unfold listAccounts. cbn [listAccounts_run].
  change (on_data (RES.DUMP_KEYS :: idx :: addr))
    with (Some (ev_dump_keys (idx :: addr))).
  change (on_data [RES.DONE]) with (Some ev_done).
  cbn [app]. unfold listAccounts_onDone. cbn [forEach_scan].
  unfold scan_packet. cbn [scan length lookup list_lookup].
  rewrite byte_eqb_ne by done.
  assert (Hslice : slice (idx :: addr) (0 + 1) (0 + 1 + ETH_ADDRESS_SIZE)
                   = addr).
  { unfold slice. simpl drop. apply take_ge.
    unfold ETH_ADDRESS_SIZE. lia. }
  rewrite Hslice.
  destruct (length addr) as [|n] eqn:E; cbn [scan].
  - apply length_zero_iff_nil in E as ->. done.
  - rewrite lookup_ge_None_2; [done|]. simpl. unfold ETH_ADDRESS_SIZE. lia.
Qed.

Lemma listAccounts_short_entry_witness :
  listAccounts [RES.DUMP_KEYS :: x07 :: [x12; x34]; [RES.DONE]]
  = Some (Resolved [ {| index := x07; address := "0x1234" |} ]).
Proof.
  apply (listAccounts_short_entry x07 [x12; x34]);
    [discriminate | simpl; lia].
Defined.

End KeyAccountsShape.

(** ** Wallet: the directory under lookups *)

Section WalletLookups.

Import Key Wallet Sample.

Lemma truthy_false s : truthy s = false <-> s = EmptyString.
Proof. destruct s; simpl; split; congruence. Qed.

Lemma set_address_twice address a :
  set_address address (set_address address a) = set_address address a.
Proof. reflexivity. Qed.

(** X10. The lookup throws 'Account not found' when the directory is
    empty or the query is the empty string, and only then: in every other
    case it returns the index of the first account. *)
Theorem getAddressIndex_not_found_iff address accs :
  (fst (getAddressIndex address accs) = Throw (Error "Account not found")
   <-> accs = [] \/ address = EmptyString)
  /\ (forall a rest, accs = a :: rest -> address <> EmptyString ->
        fst (getAddressIndex address accs) = Ok (index a)).
Proof.
  split.
  - destruct (truthy address) eqn:E.
    + destruct accs as [|a rest].
      * split; [by left|]. reflexivity.
      * rewrite getAddressIndex_nonempty by done. simpl. split; [done|].
        intros [H|H]; [done|]. apply truthy_false in H. congruence.
    + rewrite getAddressIndex_empty_string by done. simpl.
      split; [|done]. intros _. right. by apply truthy_false.
  - intros a rest -> Hne.
    rewrite getAddressIndex_nonempty; [done|].
    destruct (truthy address) eqn:E; [done|].
    by apply truthy_false in E.
Qed.

Lemma getAddressIndex_not_found_iff_witness :
  fst (getAddressIndex "0x2222222222222222222222222222222222222222"
         [account1; account2]) = Ok x01.
Proof.
  destruct (getAddressIndex_not_found_iff
              "0x2222222222222222222222222222222222222222"
              [account1; account2]) as [_ Hfirst].
  apply (Hfirst account1 [account2]); [reflexivity|discriminate].
Defined.

(** X11. A lookup of the empty string throws, and before that it has
    written the empty string into the address of every account. *)
Theorem getAddressIndex_empty_query accs :
  getAddressIndex EmptyString accs
  = (Throw (Error "Account not found"),
     map (set_address EmptyString) accs).
Proof. by apply getAddressIndex_empty_string. Qed.

(** X12. A lookup never changes the slot indices of the directory, nor
    their order, nor the number of accounts. *)
Theorem getAddressIndex_keeps_indices address accs :
  map index (snd (getAddressIndex address accs)) = map index accs.
Proof.
  destruct (truthy address) eqn:E.
  - destruct accs as [|a rest]; [done|].
    by rewrite getAddressIndex_nonempty.
  - rewrite getAddressIndex_empty_string by done. simpl.
    rewrite map_map. by apply map_ext.
Qed.

(** X13. Repeating a lookup gives the same answer and leaves the
    directory as the first lookup left it. *)
Theorem getAddressIndex_repeat address accs :
  getAddressIndex address (snd (getAddressIndex address accs))
  = getAddressIndex address accs.
Proof.
  destruct (truthy address) eqn:E.
  - destruct accs as [|a rest]; [done|].
    rewrite getAddressIndex_nonempty by done. simpl.
    by rewrite getAddressIndex_nonempty.
  - rewrite !getAddressIndex_empty_string by done. simpl.
    f_equal. rewrite map_map. by apply map_ext.
Qed.

(** X14. The first address of a directory that [listAccounts] built is
    found in its own slot, and that lookup leaves the directory as it is:
    the addresses made by the scan are already in lower case. *)
Theorem getAddressIndex_first_listed inbound accounts addr0 :
  listAccounts inbound = Some (Resolved accounts) ->
  head (getAddresses accounts) = Some addr0 ->
  exists a rest,
    accounts = a :: rest
    /\ getAddressIndex addr0 accounts = (Ok (index a), accounts).
Proof.
  intros Hlist Hhead.
  apply listAccounts_run_scanned in Hlist.
  destruct accounts as [|a rest]; [done|].
  simpl in Hhead. injection Hhead as <-.
  exists a, rest. split; [done|].
  apply Forall_cons in Hlist as [[_ (addr & _ & Haddr)] _].
  rewrite getAddressIndex_nonempty by (by rewrite Haddr).
  f_equal. f_equal. rewrite Haddr, toLowerCase_hex0x.
  destruct a as [i ad]. simpl in *. by rewrite Haddr.
Qed.

Lemma getAddressIndex_first_listed_witness :
  exists a rest,
    [account1; account2] = a :: rest
    /\ getAddressIndex "0x1111111111111111111111111111111111111111"
         [account1; account2]
       = (Ok (index a), [account1; account2]).
Proof.
  apply (getAddressIndex_first_listed
           [dump_packet_1; dump_packet_2; done_packet]);
    reflexivity.
Defined.

End WalletLookups.

(** ** Wallet.sign: what it hands to the serializer *)

Section SignerResult.

Import Key Wallet.

Variable recoverAddress : string -> Z -> buffer -> buffer -> outcome string.
Variable getAddress : string -> outcome string.

(** X15. Whenever the signing steps complete, the recovery id is 27 or
    28, [r] and [s] have 32 bytes each, whatever the length of the raw
    signature was, and they are the first half, padded, and the
    normalized second half of it. *)
Theorem sign_signature_shape address txHash signature r s v :
  sign_signature recoverAddress getAddress address txHash signature
  = Ok (r, s, v) ->
  (v = 27 \/ v = 28)
  /\ r = r_of signature /\ s = s_of signature
  /\ length r = 32%nat /\ length s = 32%nat.
Proof.
  unfold sign_signature. fold (r_of signature). fold (s_of signature).
  intros H.
  assert (Hlen : length (r_of signature) = 32%nat
                 /\ length (s_of signature) = 32%nat)
    by (split; apply length_setLengthLeft).
  destruct (recoverAddress txHash 27 _ _) as [a27|]; simpl in H; [|done].
  destruct (getAddress address) as [target|]; simpl in H; [|done].
  destruct (negb (target =? a27)%string); simpl in H.
  - destruct (recoverAddress txHash 28 _ _) as [a28|]; simpl in H; [|done].
    injection H as <- <- <-. destruct Hlen. auto.
  - injection H as <- <- <-. destruct Hlen. auto.
Qed.

(** X16. The signing steps throw exactly what the collaborators throw:
    the recovery with 27, then the checksum of the target, then, when the
    first candidate is not the target, the recovery with 28. *)
Theorem sign_signature_throws address txHash signature e :
  sign_signature recoverAddress getAddress address txHash signature
  = Throw e
  <-> recoverAddress txHash 27 (r_of signature) (s_of signature) = Throw e
      \/ (exists a27,
            recoverAddress txHash 27 (r_of signature) (s_of signature)
            = Ok a27
            /\ (getAddress address = Throw e
                \/ exists target,
                     getAddress address = Ok target /\ target <> a27
                     /\ recoverAddress txHash 28 (r_of signature)
                          (s_of signature) = Throw e)).
Proof.
  unfold sign_signature. fold (r_of signature). fold (s_of signature).
  destruct (recoverAddress txHash 27 _ _) as [a27|e27]; simpl.
  - destruct (getAddress address) as [target|et]; simpl.
    + destruct (String.eqb_spec target a27) as [->|Hne]; simpl.
      * split; [done|]. intros [H|(a & [= <-] & [H|(t & [= <-] & Hne & _)])];
          done.
      * destruct (recoverAddress txHash 28 _ _) as [a28|e28]; simpl.
        -- split; [done|].
           intros [H|(a & [= <-] & [H|(t & [= <-] & _ & H)])]; done.
        -- split.
           ++ intros [= <-]. right. exists a27. split; [done|]. right.
              by exists target.
           ++ intros [H|(a & [= <-] & [H|(t & [= <-] & _ & H)])];
                congruence.
    + split.
      * intros [= <-]. right. exists a27. split; [done|]. by left.
      * intros [H|(a & [= <-] & [H|(t & H & _)])]; congruence.
  - split.
    + intros [= <-]. by left.
    + intros [H|(a & H & _)]; congruence.
Qed.

End SignerResult.

Lemma sign_signature_shape_witness :
  (28 = 27 \/ 28 = 28)
  /\ Wallet.r_of Sample.raw_signature = Wallet.r_of Sample.raw_signature
  /\ Wallet.s_of Sample.raw_signature = Wallet.s_of Sample.raw_signature
  /\ length (Wallet.r_of Sample.raw_signature) = 32%nat
  /\ length (Wallet.s_of Sample.raw_signature) = 32%nat.
Proof.
  apply (sign_signature_shape Sample.other_key_recovery
           Sample.getAddress_digits
           "0x1111111111111111111111111111111111111111" "0x00"
           Sample.raw_signature).
  reflexivity.
Defined.

Lemma sign_signature_throws_witness :
  Wallet.sign_signature Sample.failing_recovery Sample.getAddress_digits
    "0x1111111111111111111111111111111111111111" "0x00"
    Sample.raw_signature
  = Throw (Error "Invalid signature").
Proof.
  apply sign_signature_throws. left. reflexivity.
Defined.

Section SignerHalves.

Import Key Wallet.

Lemma raw_signature_halves (P1 P2 : buffer) :
  (32 <= length P1)%nat -> (32 <= length P2)%nat ->
  r_of (take 32 P1 ++ take 32 P2) = take 32 P1
  /\ s_of (take 32 P1 ++ take 32 P2) = normalize_s (take 32 P2).
Proof.
  intros H1 H2.
  assert (Hl1 : length (take 32 P1) = 32%nat) by (rewrite length_take; lia).
  assert (Hl2 : length (take 32 P2) = 32%nat) by (rewrite length_take; lia).
  unfold r_of, s_of, slice. split.
  - rewrite drop_0, Nat.sub_0_r.
    rewrite take_app_length' by done.
    by apply setLengthLeft_exact.
  - f_equal. rewrite drop_app_length' by done.
    apply take_ge. lia.
Qed.

(** X17. With packets of the HID report size, the raw signature
    [Key.sign] resolves with splits back into its packets: [Wallet.sign]
    takes [r] from the first 32 payload bytes of the first SIGN packet
    and normalizes the first 32 payload bytes of the second into [s]. *)
Theorem sign_halves_from_packets pre dn post P1 P2 more :
  before_done pre -> is_done dn = true -> hid_sized pre ->
  omap sign_payload pre = P1 :: P2 :: more ->
  exists signature,
    Key.sign (pre ++ dn :: post) = Resolved signature
    /\ r_of signature = take 32 P1
    /\ s_of signature = normalize_s (take 32 P2).
Proof.
  intros Hpre Hdn Hsz Hres.
  exists (take 32 P1 ++ take 32 P2). split.
  - rewrite sign_before_done, Hres by done. apply sign_onDone_two.
  - pose proof (payload_length sign_payload pre sign_payload_drop Hsz) as Hl.
    rewrite Hres in Hl.
    apply Forall_cons in Hl as [H1 Hl]. apply Forall_cons in Hl as [H2 _].
    apply raw_signature_halves; lia.
Qed.

Lemma sign_halves_from_packets_witness :
  exists signature,
    Key.sign ([Sample.sign_packet_r; Sample.sign_packet_s]
                ++ Sample.done_packet :: []) = Resolved signature
    /\ r_of signature = take 32 (drop 1 Sample.sign_packet_r)
    /\ s_of signature = normalize_s (take 32 (drop 1 Sample.sign_packet_s)).
Proof.
  apply (sign_halves_from_packets
           [Sample.sign_packet_r; Sample.sign_packet_s]
           Sample.done_packet [] _ _ []).
  - repeat constructor.
  - reflexivity.
  - repeat constructor.
  - reflexivity.
Defined.

(** X18. An [s] half that is not below the group order is not refused:
    the subtraction goes negative, [toBuffer] keeps the magnitude, and
    the value handed on is [s - N], in 32 bytes. *)
Theorem normalize_s_over_order s :
  (length s <= 32)%nat ->
  secp256k1N <= BN_of_buffer s ->
  BN_of_buffer (normalize_s s) = BN_of_buffer s - secp256k1N
  /\ length (normalize_s s) = 32%nat.
Proof.
  intros Hlen Hge. split; [|apply length_setLengthLeft].
  unfold normalize_s.
  pose proof (BN_of_buffer_range s) as [_ Hlt].
  assert (Hpow : 256 ^ Z.of_nat (length s) <= 2 ^ 256).
  { change (2 ^ 256) with (256 ^ Z.of_nat 32).
    apply Z.pow_le_mono_r; lia. }
  pose proof secp256k1N_odd. pose proof secp256k1N_lt_2_256.
  assert (Hpos : 0 < secp256k1halfN) by reflexivity.
  destruct (Z.gtb_spec (BN_of_buffer s) secp256k1halfN); [|lia].
  assert (Habs : Z.abs (secp256k1N - BN_of_buffer s)
                 = BN_of_buffer s - secp256k1N) by lia.
  assert (Hbuf : BN_toBuffer (secp256k1N - BN_of_buffer s)
                 = BN_toBuffer (BN_of_buffer s - secp256k1N)).
  { unfold BN_toBuffer, BN_byteLength. rewrite Habs.
    by rewrite (Z.abs_eq (BN_of_buffer s - secp256k1N)) by lia. }
  rewrite Hbuf.
  rewrite BN_of_setLengthLeft by (apply BN_toBuffer_length; lia).
  apply BN_toBuffer_value. lia.
Qed.

Lemma normalize_s_over_order_witness :
  BN_of_buffer (normalize_s Sample.s_over) = 7
  /\ length (normalize_s Sample.s_over) = 32%nat.
Proof.
  destruct (normalize_s_over_order Sample.s_over) as [Hvalue Hlength].
  - simpl. lia.
  - apply Z.leb_le. vm_compute. reflexivity.
  - split; [|exact Hlength]. rewrite Hvalue. vm_compute. reflexivity.
Defined.

End SignerHalves.

(** ** Wallet.sign: the whole call *)

Section WalletSignCall.

Import Key Wallet.

Variable recoverAddress : string -> Z -> buffer -> buffer -> outcome string.
Variable getAddress : string -> outcome string.

Lemma truthy_nonempty s : s <> EmptyString -> truthy s = true.
Proof. by destruct s. Qed.

(** X19. With an empty directory, or for the empty address, [sign] is
    rejected with 'Account not found' and writes nothing to the device,
    whatever the device would have answered. *)
Theorem sign_not_found address txHash accs inbound :
  accs = [] \/ address = EmptyString ->
  Wallet.sign recoverAddress getAddress address txHash accs inbound
  = (Rejected (Error "Account not found"),
     map (set_address (toLowerCase address)) accs, []).
Proof.
  intros H. unfold Wallet.sign.
  destruct (truthy address) eqn:E.
  - destruct H as [-> | ->]; [|done]. reflexivity.
  - by rewrite getAddressIndex_empty_string.
Qed.

(** X20. From the call to the result: for a non-empty address and a
    non-empty directory, when the hash is the hex string of a 32-byte
    digest, two SIGN packets of the HID report size arrive before DONE,
    and the recovery with 27 gives the checksummed target, [sign] writes
    one packet (the SIGN code, the slot of the first account, the digest,
    zeros) and is fulfilled with [r] from the first packet, the
    normalized [s] from the second, and [v = 27]. *)
Theorem sign_fulfilled address digest a rest pre dn post P1 P2 more target :
  address <> EmptyString ->
  length digest = 32%nat ->
  before_done pre -> is_done dn = true -> hid_sized pre ->
  omap sign_payload pre = P1 :: P2 :: more ->
  recoverAddress (hex0x digest) 27 (take 32 P1) (normalize_s (take 32 P2))
  = Ok target ->
  getAddress address = Ok target ->
  Wallet.sign recoverAddress getAddress address (hex0x digest) (a :: rest)
    (pre ++ dn :: post)
  = (Fulfilled (take 32 P1, normalize_s (take 32 P2), 27),
     set_address (toLowerCase address) a :: rest,
     [Some <$> (CMD.SIGN :: index a :: digest ++ replicate 30 x00)]).
Proof.
  intros Haddr Hdigest Hpre Hdn Hsz Hres H27 Htarget.
  unfold Wallet.sign.
  rewrite getAddressIndex_nonempty by (by apply truthy_nonempty).
  rewrite sign_before_done, Hres, sign_onDone_two by done.
  pose proof (payload_length sign_payload pre sign_payload_drop Hsz) as Hl.
  rewrite Hres in Hl.
  apply Forall_cons in Hl as [H1 Hl]. apply Forall_cons in Hl as [H2 _].
  destruct (raw_signature_halves P1 P2) as [Hr Hs]; [lia|lia|].
  rewrite (sign_signature_27 recoverAddress getAddress address
             (hex0x digest) (take 32 P1 ++ take 32 P2) target);
    [|by rewrite Hr, Hs|done].
  rewrite Hr, Hs.
  change (substring_from 2 (hex0x digest)) with (toString_hex digest).
  rewrite Buffer_from_hex_bytes.
  rewrite sign_request_32 by lia.
  by rewrite (take_ge digest) by lia.
Qed.


End WalletSignCall.

Lemma sign_not_found_witness :
  Wallet.sign Sample.own_key_recovery Sample.getAddress_digits
    "0x1111111111111111111111111111111111111111" Sample.txHash_ab []
    [Sample.sign_packet_r; Sample.sign_packet_s; Sample.done_packet]
  = (Wallet.Rejected (Error "Account not found"), [], []).
Proof.
  apply (sign_not_found Sample.own_key_recovery Sample.getAddress_digits
           "0x1111111111111111111111111111111111111111" Sample.txHash_ab []).
  left. reflexivity.
Defined.

Lemma sign_fulfilled_witness :
  Wallet.sign Sample.own_key_recovery Sample.getAddress_digits
    "0x1111111111111111111111111111111111111111" (hex0x Sample.digest_ab)
    [Sample.account2; Sample.account1]
    ([Sample.sign_packet_r; Sample.sign_packet_s]
       ++ Sample.done_packet :: [])
  = (Wallet.Fulfilled
       (take 32 (drop 1 Sample.sign_packet_r),
        Wallet.normalize_s (take 32 (drop 1 Sample.sign_packet_s)), 27),
     Wallet.set_address
       (toLowerCase "0x1111111111111111111111111111111111111111")
       Sample.account2 :: [Sample.account1],
     [Some <$> (Key.CMD.SIGN :: Key.index Sample.account2
                  :: Sample.digest_ab ++ replicate 30 x00)]).
Proof.
  apply (sign_fulfilled Sample.own_key_recovery Sample.getAddress_digits
           "0x1111111111111111111111111111111111111111" Sample.digest_ab
           Sample.account2 [Sample.account1]
           [Sample.sign_packet_r; Sample.sign_packet_s] Sample.done_packet []
           _ _ []
           "0x1111111111111111111111111111111111111111").
  - discriminate.
  - reflexivity.
  - repeat constructor.
  - reflexivity.
  - repeat constructor.
  - reflexivity.
  - reflexivity.
  - reflexivity.
Defined.


(** ** Key.sign: what a resolved call tells *)

Section KeySignResolved.

Import Key.

(** X22. When [Key.sign] is resolved at DONE, at least two SIGN packets
    had arrived, and the raw signature is made of the first 32 bytes of
    the payloads of the first two, or of what they have when they are
    shorter: it never has more than 64 bytes and is never padded. *)
Theorem sign_resolved_inv pre dn post signature :
  before_done pre -> is_done dn = true ->
  sign (pre ++ dn :: post) = Resolved signature ->
  exists P1 P2 more,
    omap sign_payload pre = P1 :: P2 :: more
    /\ signature = take 32 P1 ++ take 32 P2
    /\ length signature
       = (Nat.min 32 (length P1) + Nat.min 32 (length P2))%nat
    /\ (length signature <= 64)%nat.
Proof.
  intros Hpre Hdn. rewrite sign_before_done by done.
  destruct (omap sign_payload pre) as [|P1 [|P2 more]];
    try discriminate.
  rewrite sign_onDone_two. intros [= <-].
  exists P1, P2, more. split; [done|]. split; [done|].
  rewrite length_app, !length_take. lia.
Qed.

Lemma sign_resolved_inv_witness :
  exists P1 P2 more,
    omap sign_payload [Sample.sign_packet_r; Sample.sign_packet_s]
    = P1 :: P2 :: more
    /\ take 32 (drop 1 Sample.sign_packet_r)
         ++ take 32 (drop 1 Sample.sign_packet_s)
       = take 32 P1 ++ take 32 P2
    /\ length (take 32 (drop 1 Sample.sign_packet_r)
                 ++ take 32 (drop 1 Sample.sign_packet_s))
       = (Nat.min 32 (length P1) + Nat.min 32 (length P2))%nat
    /\ (length (take 32 (drop 1 Sample.sign_packet_r)
                  ++ take 32 (drop 1 Sample.sign_packet_s)) <= 64)%nat.
Proof.
  apply (sign_resolved_inv [Sample.sign_packet_r; Sample.sign_packet_s]
           Sample.done_packet []).
  - repeat constructor.
  - reflexivity.
  - reflexivity.
Defined.

End KeySignResolved.
